(** * A Feistel cipher over byte arrays: [cipher.py]

    Shallow embedding of [xor], [round], [flip], [pad], [unpad] and [crypt]
    and the properties of the block cipher they build.

    A [bytearray] is a list of integers; every element a well-formed
    bytearray holds lies in [0, 256) ([is_bytes]).  Python integers
    (lengths, indices, the round count) are [Z], so that negative slice
    bounds behave as they do in Python. *)

From Stdlib Require Import ZArith List Lia Bool Permutation.
Import ListNotations.
Open Scope Z_scope.

(** ** Python sequences *)

Definition bytes := list Z.

Definition is_byte (b : Z) : Prop := 0 <= b < 256.
Definition is_bytes (l : bytes) : Prop := Forall is_byte l.

(** [len(data)] *)
Definition len {A} (l : list A) : Z := Z.of_nat (length l).

(** A slice bound as Python normalises it for a sequence of length [n]:
    a negative bound counts from the end, and both kinds are clamped to
    [0, n]. *)
Definition norm_index (n i : Z) : Z :=
  if i <? 0 then Z.max 0 (n + i) else Z.min i n.

(** [l[start:stop]] *)
Definition slice {A} (l : list A) (start stop : Z) : list A :=
  let s := norm_index (len l) start in
  let e := norm_index (len l) stop in
  firstn (Z.to_nat (e - s)) (skipn (Z.to_nat s) l).

(** [l[:stop]] *)
Definition slice_to {A} (l : list A) (stop : Z) : list A :=
  slice l 0 stop.

(** [l[start:]] *)
Definition slice_from {A} (l : list A) (start : Z) : list A :=
  slice l start (len l).

(** [range(start, stop, step)] for a positive [step]. *)
Definition range (start stop step : Z) : list Z :=
  map (fun k => start + Z.of_nat k * step)
      (seq 0 (Z.to_nat ((stop - start + step - 1) / step))).

(** ** Exceptions *)

(** The only exception the module raises itself is the one of [round],
    [Exception("Invalid data size: L")]. *)
Inductive error : Type :=
| InvalidBlockLength (L : Z).

Inductive result (A : Type) : Type :=
| Ok (a : A)
| Raise (e : error).
Arguments Ok {A} a.
Arguments Raise {A} e.

Definition bind {A B} (m : result A) (k : A -> result B) : result B :=
  match m with
  | Ok a => k a
  | Raise e => Raise e
  end.

Notation "x <- m ;; k" := (bind m (fun x => k))
  (at level 61, m at next level, right associativity).

(** ** The cipher *)

Definition BLK_SIZE : Z := 32.

(** [bytearray([ai ^ bi for (ai, bi) in zip(a, b)])] *)
Definition xor (a b : bytes) : bytes :=
  map (fun '(ai, bi) => Z.lxor ai bi) (combine a b).

Definition round (data : bytes) (F : bytes -> bytes) : result bytes :=
  let L := len data in
  if negb (Z.land L 1 =? 0) then Raise (InvalidBlockLength L)
  else
    let left := slice_to data (L / 2) in
    let right := slice_from data (L / 2) in
    Ok (right ++ xor left (F right)).

Definition flip (data : bytes) : bytes :=
  let l := len data in
  slice_from data (l / 2) ++ slice_to data (l / 2).

Definition pad (data : bytes) : bytes :=
  let m := BLK_SIZE - len data mod BLK_SIZE in
  data ++ repeat m (Z.to_nat m).

(** [data[-1]] of a non-empty sequence. *)
Definition last_byte (data : bytes) : Z := last data 0.

Definition unpad (data : bytes) : bytes :=
  if len data =? 0 then data
  else slice_to data (- last_byte data).

(** [for _ in range(r): blk = round(blk, F)] *)
Fixpoint rounds (n : nat) (blk : bytes) (F : bytes -> bytes) : result bytes :=
  match n with
  | O => Ok blk
  | S n' => blk' <- round blk F ;; rounds n' blk' F
  end.

(** The loop over the blocks, [res] being the accumulator. *)
Fixpoint crypt_loop (blks : list bytes) (F : bytes -> bytes) (r : Z)
    (res : bytes) : result bytes :=
  match blks with
  | [] => Ok res
  | blk :: blks' =>
      blk' <- rounds (Z.to_nat r) blk F ;;
      crypt_loop blks' F r (res ++ flip blk')
  end.

(** [[data[i: i + BLK_SIZE] for i in range(0, len(data), BLK_SIZE)]] *)
Definition blocks (data : bytes) : list bytes :=
  map (fun i => slice data i (i + BLK_SIZE)) (range 0 (len data) BLK_SIZE).

Definition crypt (data : bytes) (F : bytes -> bytes) (decrypt : bool) (r : Z)
    : result bytes :=
  let data := if decrypt then data else pad data in
  let blks := blocks data in
  res <- crypt_loop blks F r [] ;;
  Ok (if decrypt then unpad res else res).

(** The per-block transform of the driver: [r] rounds, then the flip. *)
Definition crypt_block (blk : bytes) (F : bytes -> bytes) (r : Z)
    : result bytes :=
  blk' <- rounds (Z.to_nat r) blk F ;; Ok (flip blk').

(** A stand-in for [hash_func]: a 16-byte digest of an input of any length,
    every byte of it the sum of the input's bytes modulo 256. *)
Definition F_sum (x : bytes) : bytes :=
  repeat (fold_right Z.add 0 x mod 256) 16.

(** What the specification says of [unpad]: the empty sequence is returned
    unchanged, otherwise the prefix of length [len(data) - m], where [m] is
    the last byte. *)
Definition unpad_spec (data : bytes) : bytes :=
  if len data =? 0 then data
  else firstn (Z.to_nat (len data - last_byte data)) data.

(** The number of bytes [pad] appends. *)
Definition pad_count (data : bytes) : Z := BLK_SIZE - len data mod BLK_SIZE.

(** A block of exactly [BLK_SIZE] bytes. *)
Definition full_block (b : bytes) : Prop := len b = BLK_SIZE.

(** What the specification asks of the decrypt direction: an input whose
    length is not a positive multiple of [BLK_SIZE] is refused. *)
Definition decrypt_refuses_bad_length : Prop :=
  forall (data : bytes) (F : bytes -> bytes) (r : Z),
    ~ (0 < len data /\ len data mod BLK_SIZE = 0) ->
    exists e, crypt data F true r = Raise e.

(** ** Sample runs *)

Example pad_run : pad [1; 2; 3] = [1; 2; 3] ++ repeat 29 29.
Proof. reflexivity. Qed.

Example roundtrip_run : unpad (pad [1; 2; 3]) = [1; 2; 3].
Proof. reflexivity. Qed.

Example crypt_run :
  exists c, crypt [10; 20; 30] F_sum false 4 = Ok c /\ len c = 32 /\
            crypt c F_sum true 4 = Ok [10; 20; 30].
Proof. eexists. split; [vm_compute; reflexivity|]. split; reflexivity. Qed.

(** ** Sequences and slices *)

Lemma len_nonneg {A} (l : list A) : 0 <= len l.
Proof. unfold len. lia. Qed.

Lemma len_app {A} (l1 l2 : list A) : len (l1 ++ l2) = len l1 + len l2.
Proof. unfold len. rewrite length_app. lia. Qed.

Lemma len_nil_iff {A} (l : list A) : len l = 0 <-> l = [].
Proof.
  unfold len. destruct l; simpl; split; intros H;
    try reflexivity; try discriminate; lia.
Qed.

Lemma norm_index_nonneg (n i : Z) :
  0 <= n -> 0 <= i -> norm_index n i = Z.min i n.
Proof.
  intros _ Hi. unfold norm_index.
  destruct (Z.ltb_spec i 0); [lia | reflexivity].
Qed.

Lemma norm_index_neg (n i : Z) :
  i < 0 -> norm_index n i = Z.max 0 (n + i).
Proof.
  intros Hi. unfold norm_index.
  destruct (Z.ltb_spec i 0); [reflexivity | lia].
Qed.

Lemma firstn_clamp {A} (l : list A) (k : Z) :
  firstn (Z.to_nat (Z.min k (len l))) l = firstn (Z.to_nat k) l.
Proof.
  destruct (Z.le_gt_cases k (len l)) as [Hk | Hk].
  - rewrite Z.min_l by assumption. reflexivity.
  - rewrite Z.min_r by lia.
    rewrite !firstn_all2; unfold len in *; try lia. reflexivity.
Qed.

Lemma slice_to_firstn {A} (l : list A) (k : Z) :
  0 <= k -> slice_to l k = firstn (Z.to_nat k) l.
Proof.
  intros Hk. unfold slice_to, slice.
  pose proof (len_nonneg l) as Hn.
  rewrite !norm_index_nonneg by lia.
  rewrite (Z.min_l 0) by lia. simpl skipn.
  rewrite Z.sub_0_r. apply firstn_clamp.
Qed.

Lemma slice_to_neg {A} (l : list A) (k : Z) :
  k < 0 -> slice_to l k = firstn (Z.to_nat (len l + k)) l.
Proof.
  intros Hk. unfold slice_to, slice.
  pose proof (len_nonneg l) as Hn.
  rewrite (norm_index_nonneg _ 0), (norm_index_neg _ k) by lia.
  rewrite (Z.min_l 0) by lia. simpl skipn.
  rewrite Z.sub_0_r. f_equal. lia.
Qed.

Lemma slice_from_skipn {A} (l : list A) (k : Z) :
  0 <= k -> slice_from l k = skipn (Z.to_nat k) l.
Proof.
  intros Hk. unfold slice_from, slice.
  pose proof (len_nonneg l) as Hn.
  rewrite !norm_index_nonneg by lia.
  rewrite Z.min_id.
  rewrite firstn_all2 by (rewrite length_skipn; unfold len in *; lia).
  destruct (Z.le_gt_cases k (len l)) as [Hle | Hgt].
  - rewrite Z.min_l by assumption. reflexivity.
  - rewrite Z.min_r by lia.
    rewrite !skipn_all2; unfold len in *; try lia. reflexivity.
Qed.

(** The two halves of a sequence that is the concatenation of two
    sequences of one length. *)
Lemma half_len {A} (a b : list A) :
  length a = length b -> len (a ++ b) / 2 = len a.
Proof.
  intros H. rewrite len_app. unfold len. rewrite <- H.
  replace (Z.of_nat (length a) + Z.of_nat (length a))
    with (Z.of_nat (length a) * 2) by lia.
  apply Z.div_mul. lia.
Qed.

Lemma left_half {A} (a b : list A) :
  length a = length b -> slice_to (a ++ b) (len (a ++ b) / 2) = a.
Proof.
  intros H. rewrite half_len by assumption.
  rewrite slice_to_firstn by apply len_nonneg.
  unfold len. rewrite Nat2Z.id.
  rewrite firstn_app, Nat.sub_diag, firstn_all. simpl. apply app_nil_r.
Qed.

Lemma right_half {A} (a b : list A) :
  length a = length b -> slice_from (a ++ b) (len (a ++ b) / 2) = b.
Proof.
  intros H. rewrite half_len by assumption.
  rewrite slice_from_skipn by apply len_nonneg.
  unfold len. rewrite Nat2Z.id.
  rewrite skipn_app, Nat.sub_diag, skipn_all. reflexivity.
Qed.

(** Every sequence of even length splits into two halves of one length. *)
Lemma even_split {A} (l : list A) :
  len l mod 2 = 0 ->
  exists a b, l = a ++ b /\ length a = length b /\ len a = len l / 2.
Proof.
  intros Hev.
  exists (firstn (Z.to_nat (len l / 2)) l), (skipn (Z.to_nat (len l / 2)) l).
  pose proof (len_nonneg l) as Hn.
  assert (Hd : len l = 2 * (len l / 2)).
  { pose proof (Z.div_mod (len l) 2). lia. }
  split; [symmetry; apply firstn_skipn|].
  unfold len in *.
  rewrite length_firstn, length_skipn. lia.
Qed.

(** ** [xor] *)

Lemma xor_length (a b : bytes) :
  length (xor a b) = Nat.min (length a) (length b).
Proof. unfold xor. rewrite length_map. apply length_combine. Qed.

Lemma xor_nil_r (a : bytes) : xor a [] = [].
Proof. destruct a; reflexivity. Qed.

Lemma xor_cons (x y : Z) (a b : bytes) :
  xor (x :: a) (y :: b) = Z.lxor x y :: xor a b.
Proof. reflexivity. Qed.

Lemma xor_nth_error (a b : bytes) (i : nat) :
  nth_error (xor a b) i =
  match nth_error a i, nth_error b i with
  | Some ai, Some bi => Some (Z.lxor ai bi)
  | _, _ => None
  end.
Proof.
  revert b i. induction a as [|x a IH]; intros b i.
  - destruct i; reflexivity.
  - destruct b as [|y b].
    + rewrite xor_nil_r. destruct i; simpl.
      * reflexivity.
      * destruct (nth_error a i); reflexivity.
    + rewrite xor_cons. destruct i; simpl.
      * reflexivity.
      * apply IH.
Qed.

Lemma xor_firstn (a b : bytes) :
  xor a b = xor (firstn (Nat.min (length a) (length b)) a)
                (firstn (Nat.min (length a) (length b)) b).
Proof.
  revert b. induction a as [|x a IH]; intros b.
  - reflexivity.
  - destruct b as [|y b].
    + reflexivity.
    + simpl length. simpl Nat.min. simpl firstn.
      rewrite !xor_cons. f_equal. apply IH.
Qed.

(** XOR-ing the same sequence in twice gives the first operand back, as
    long as the second covers it. *)
Lemma xor_cancel (a b : bytes) :
  (length a <= length b)%nat -> xor (xor a b) b = a.
Proof.
  revert b. induction a as [|x a IH]; intros b Hl.
  - reflexivity.
  - destruct b as [|y b]; simpl in Hl; [lia|].
    rewrite !xor_cons. f_equal.
    + rewrite Z.lxor_assoc, Z.lxor_nilpotent. apply Z.lxor_0_r.
    + apply IH. lia.
Qed.

Lemma lxor_is_byte (x y : Z) : is_byte x -> is_byte y -> is_byte (Z.lxor x y).
Proof.
  unfold is_byte. intros [Hx0 Hx] [Hy0 Hy]. split.
  - apply Z.lxor_nonneg. lia.
  - destruct (Z.eq_dec (Z.lxor x y) 0) as [E | NE]; [lia|].
    assert (Hpos : 0 < Z.lxor x y).
    { pose proof (proj2 (Z.lxor_nonneg x y)). lia. }
    change 256 with (2 ^ 8).
    apply Z.log2_lt_pow2; [assumption|].
    pose proof (Z.log2_lxor x y Hx0 Hy0) as Hlog.
    assert (Hlx : Z.log2 x < 8).
    { destruct (Z.eq_dec x 0) as [-> | Nx]; [simpl; lia|].
      apply Z.log2_lt_pow2; simpl; lia. }
    assert (Hly : Z.log2 y < 8).
    { destruct (Z.eq_dec y 0) as [-> | Ny]; [simpl; lia|].
      apply Z.log2_lt_pow2; simpl; lia. }
    lia.
Qed.

(** The [bytearray(...)] constructor of [xor] is given bytes only. *)
Lemma xor_is_bytes (a b : bytes) :
  is_bytes a -> is_bytes b -> is_bytes (xor a b).
Proof.
  unfold is_bytes. intros Ha. revert b.
  induction Ha as [|x a Hx Ha IH]; intros b Hb.
  - constructor.
  - destruct Hb as [|y b Hy Hb].
    + rewrite xor_nil_r. constructor.
    + rewrite xor_cons. constructor.
      * apply lxor_is_byte; assumption.
      * apply IH. assumption.
Qed.

(** C9: on two sequences of one length [xor] returns a sequence of that
    length whose i-th byte is [a[i] XOR b[i]]; on sequences of different
    lengths it raises nothing and returns the element-wise XOR of the first
    [min(len(a), len(b))] bytes of each. *)
Theorem xor_spec (a b : bytes) :
  (length a = length b -> length (xor a b) = length a) /\
  length (xor a b) = Nat.min (length a) (length b) /\
  (forall i, nth_error (xor a b) i =
             match nth_error a i, nth_error b i with
             | Some ai, Some bi => Some (Z.lxor ai bi)
             | _, _ => None
             end) /\
  xor a b = xor (firstn (Nat.min (length a) (length b)) a)
                (firstn (Nat.min (length a) (length b)) b).
Proof.
  split; [|split; [|split]].
  - intros H. rewrite xor_length, H. apply Nat.min_id.
  - apply xor_length.
  - apply xor_nth_error.
  - apply xor_firstn.
Qed.

Lemma xor_spec_witness :
  length [1; 2; 3] = length [4; 5; 6] /\
  length (xor [1; 2; 3] [4; 5; 6]) = length [1; 2; 3].
Proof.
  split; [reflexivity|].
  apply (proj1 (xor_spec [1; 2; 3] [4; 5; 6])). reflexivity.
Defined.

Example xor_truncates : xor [1; 2; 3] [255] = [254].
Proof. reflexivity. Qed.

(** ** [flip] *)

Lemma flip_app (a b : bytes) :
  length a = length b -> flip (a ++ b) = b ++ a.
Proof.
  intros H. unfold flip. rewrite left_half, right_half by assumption.
  reflexivity.
Qed.

Lemma flip_length (data : bytes) : length (flip data) = length data.
Proof.
  unfold flip.
  pose proof (len_nonneg data) as Hn.
  assert (0 <= len data / 2) by (apply Z.div_pos; lia).
  rewrite slice_from_skipn, slice_to_firstn by assumption.
  rewrite length_app, length_skipn, length_firstn.
  assert (len data / 2 <= len data) by (apply Z.div_le_upper_bound; lia).
  unfold len in *. lia.
Qed.

(** C8: on a sequence of even length [flip] exchanges the two halves,
    [flip(A||B) = B||A] with [|A| = |B|], and flipping twice gives the
    sequence back. *)
Theorem flip_involution (b : bytes) :
  len b mod 2 = 0 ->
  (exists A B, b = A ++ B /\ length A = length B /\ flip b = B ++ A) /\
  (forall A B, b = A ++ B -> length A = length B -> flip b = B ++ A) /\
  flip (flip b) = b.
Proof.
  intros Hev.
  destruct (even_split b Hev) as (A & B & Hb & Hl & _).
  split; [|split].
  - exists A, B. subst b. auto using flip_app.
  - intros A' B' -> Hl'. apply flip_app. assumption.
  - subst b. rewrite flip_app by assumption.
    apply flip_app. symmetry. assumption.
Qed.

Lemma flip_involution_witness :
  len [1; 2; 3; 4] mod 2 = 0 /\ flip (flip [1; 2; 3; 4]) = [1; 2; 3; 4].
Proof.
  split; [reflexivity|].
  apply (flip_involution [1; 2; 3; 4]). reflexivity.
Defined.

(** ** [pad] and [unpad] *)

Lemma pad_count_range (data : bytes) : 1 <= pad_count data <= BLK_SIZE.
Proof.
  unfold pad_count, BLK_SIZE.
  pose proof (Z.mod_pos_bound (len data) 32). lia.
Qed.

Lemma pad_unfold (data : bytes) :
  pad data = data ++ repeat (pad_count data) (Z.to_nat (pad_count data)).
Proof. reflexivity. Qed.

Lemma len_repeat {A} (x : A) (n : Z) :
  0 <= n -> len (repeat x (Z.to_nat n)) = n.
Proof. intros Hn. unfold len. rewrite repeat_length. lia. Qed.

Lemma len_pad (data : bytes) : len (pad data) = len data + pad_count data.
Proof.
  rewrite pad_unfold, len_app, len_repeat; [reflexivity|].
  pose proof (pad_count_range data). lia.
Qed.

Lemma len_pad_mod (data : bytes) : len (pad data) mod BLK_SIZE = 0.
Proof.
  rewrite len_pad. unfold pad_count, BLK_SIZE.
  pose proof (Z.div_mod (len data) 32).
  replace (len data + (32 - len data mod 32))
    with ((len data / 32 + 1) * 32) by lia.
  apply Z.mod_mul. lia.
Qed.

Lemma last_app_repeat (data : bytes) (x : Z) (n : nat) :
  last (data ++ repeat x (S n)) 0 = x.
Proof.
  replace (repeat x (S n)) with (repeat x n ++ [x]).
  - rewrite app_assoc. apply last_last.
  - change [x] with (repeat x 1). rewrite <- repeat_app.
    f_equal. lia.
Qed.

Lemma last_byte_pad (data : bytes) : last_byte (pad data) = pad_count data.
Proof.
  unfold last_byte. rewrite pad_unfold.
  pose proof (pad_count_range data) as Hm.
  destruct (Z.to_nat (pad_count data)) as [|n] eqn:E; [lia|].
  apply last_app_repeat.
Qed.

(** The [bytearray(...)] constructor of [pad] is given bytes only. *)
Lemma pad_is_bytes (data : bytes) : is_bytes data -> is_bytes (pad data).
Proof.
  intros Hd. rewrite pad_unfold. apply Forall_app. split; [assumption|].
  apply Forall_forall. intros x Hx. apply repeat_spec in Hx. subst x.
  pose proof (pad_count_range data). unfold is_byte, BLK_SIZE in *. lia.
Qed.

(** C6: [pad] appends [m = BLK_SIZE - len(d) mod BLK_SIZE] copies of the
    byte [m], with [1 <= m <= BLK_SIZE]; the result is longer than [d],
    its length is a multiple of [BLK_SIZE], and a block-aligned [d] gets a
    whole block of padding. *)
Theorem pad_spec (d : bytes) :
  let m := BLK_SIZE - len d mod BLK_SIZE in
  1 <= m <= BLK_SIZE /\
  pad d = d ++ repeat m (Z.to_nat m) /\
  len (pad d) = len d + m /\
  len (pad d) > len d /\
  len (pad d) mod BLK_SIZE = 0 /\
  (len d mod BLK_SIZE = 0 ->
   pad d = d ++ repeat BLK_SIZE (Z.to_nat BLK_SIZE) /\
   len (pad d) = len d + BLK_SIZE).
Proof.
  intros m.
  pose proof (pad_count_range d) as Hm. fold m in Hm.
  change (1 <= m <= BLK_SIZE) in Hm.
  split; [exact Hm|].
  split; [reflexivity|].
  split; [apply len_pad|].
  split; [rewrite len_pad; fold m; unfold pad_count; lia|].
  split; [apply len_pad_mod|].
  intros Hal.
  assert (Em : m = BLK_SIZE) by (unfold m; rewrite Hal; lia).
  split.
  - rewrite pad_unfold. unfold pad_count. fold m. rewrite Em. reflexivity.
  - rewrite len_pad. unfold pad_count. fold m. rewrite Em. reflexivity.
Qed.

Lemma pad_spec_witness :
  len (repeat 7 32) mod BLK_SIZE = 0 /\
  pad (repeat 7 32) = repeat 7 32 ++ repeat BLK_SIZE (Z.to_nat BLK_SIZE) /\
  len (pad (repeat 7 32)) = len (repeat 7 32) + BLK_SIZE.
Proof.
  split; [reflexivity|].
  apply (pad_spec (repeat 7 32)). reflexivity.
Defined.

Example pad_empty : pad [] = repeat 32 32.
Proof. reflexivity. Qed.

(** [unpad] strips the last [m] bytes whenever the last byte [m] is at
    least one; this is what the specification says of it. *)
Lemma unpad_strips (data : bytes) :
  1 <= last_byte data -> unpad data = unpad_spec data.
Proof.
  intros Hm. unfold unpad, unpad_spec.
  destruct (len data =? 0); [reflexivity|].
  rewrite slice_to_neg by lia. reflexivity.
Qed.

(** A last byte of zero makes the slice bound [-0 = 0]: everything goes. *)
Lemma unpad_last_zero (data : bytes) :
  last_byte data = 0 -> unpad data = [].
Proof.
  intros Hm. unfold unpad.
  destruct (Z.eqb_spec (len data) 0) as [E | NE].
  - apply len_nil_iff. assumption.
  - rewrite Hm. simpl. rewrite slice_to_firstn by lia. reflexivity.
Qed.

Lemma unpad_nil : unpad [] = [].
Proof. reflexivity. Qed.

(** [unpad] strips a run of [m >= 1] bytes of value [m]. *)
Lemma unpad_app_repeat (d : bytes) (m : Z) :
  1 <= m -> unpad (d ++ repeat m (Z.to_nat m)) = d.
Proof.
  intros Hm.
  assert (Hlast : last_byte (d ++ repeat m (Z.to_nat m)) = m).
  { unfold last_byte.
    destruct (Z.to_nat m) as [|n] eqn:E; [lia|]. apply last_app_repeat. }
  rewrite unpad_strips by lia.
  unfold unpad_spec. rewrite Hlast, len_app, len_repeat by lia.
  pose proof (len_nonneg d) as Hd.
  destruct (Z.eqb_spec (len d + m) 0) as [E | NE]; [lia|].
  replace (len d + m - m) with (len d) by lia.
  unfold len. rewrite Nat2Z.id.
  rewrite firstn_app, Nat.sub_diag, firstn_all.
  simpl. apply app_nil_r.
Qed.

(** C3: stripping the padding that [pad] added gives the data back. *)
Theorem unpad_pad (d : bytes) : unpad (pad d) = d.
Proof.
  rewrite pad_unfold. apply unpad_app_repeat.
  pose proof (pad_count_range d). lia.
Qed.

(** C5: on a non-empty sequence whose last byte is 0 the code's
    [data[:-data[-1]]] is [data[:0]], the empty sequence, where the
    specification's [data[0 : len(data) - 0]] is the whole of [data]. *)
Theorem unpad_zero_last_byte :
  unpad [1; 2; 0] = [] /\ unpad_spec [1; 2; 0] = [1; 2; 0] /\
  unpad [1; 2; 0] <> unpad_spec [1; 2; 0].
Proof.
  split; [reflexivity|]. split; [reflexivity|]. discriminate.
Qed.

(** ** [round] *)

Lemma land_1 (L : Z) : Z.land L 1 = L mod 2.
Proof. change 1 with (Z.ones 1) at 1. apply Z.land_ones. lia. Qed.

Lemma round_odd (data : bytes) (F : bytes -> bytes) :
  len data mod 2 = 1 -> round data F = Raise (InvalidBlockLength (len data)).
Proof.
  intros Hodd. unfold round. rewrite land_1, Hodd. reflexivity.
Qed.

Lemma round_even (data : bytes) (F : bytes -> bytes) :
  len data mod 2 = 0 ->
  round data F =
  Ok (slice_from data (len data / 2) ++
      xor (slice_to data (len data / 2)) (F (slice_from data (len data / 2)))).
Proof.
  intros Hev. unfold round. rewrite land_1, Hev. reflexivity.
Qed.

Lemma len_app_same_even {A} (a b : list A) :
  length a = length b -> len (a ++ b) mod 2 = 0.
Proof.
  intros H. rewrite len_app. unfold len. rewrite <- H.
  replace (Z.of_nat (length a) + Z.of_nat (length a))
    with (Z.of_nat (length a) * 2) by lia.
  apply Z.mod_mul. lia.
Qed.

(** One round on a block given by its two halves. *)
Lemma round_halves (a b : bytes) (F : bytes -> bytes) :
  length a = length b -> round (a ++ b) F = Ok (b ++ xor a (F b)).
Proof.
  intros H. rewrite round_even by (apply len_app_same_even; assumption).
  rewrite left_half, right_half by assumption. reflexivity.
Qed.

(** C7: on a block of even length [L], with [F] taking [L/2] bytes to
    [L/2] bytes, [round] returns [right || (left XOR F(right))], where
    [left = block[0:L/2]] and [right = block[L/2:L]], the second part being
    [L/2] bytes long with [left[i] XOR F(right)[i]] at index [i]; on a block
    of odd length it raises. *)
Theorem round_spec (data : bytes) (F : bytes -> bytes) :
  (len data mod 2 = 0 ->
   (forall x, len x = len data / 2 -> len (F x) = len data / 2) ->
   let h := Z.to_nat (len data / 2) in
   let left := firstn h data in
   let right := skipn h data in
   round data F = Ok (right ++ xor left (F right)) /\
   length left = h /\ length right = h /\
   length (xor left (F right)) = h /\
   forall i, nth_error (xor left (F right)) i =
             match nth_error left i, nth_error (F right) i with
             | Some li, Some fi => Some (Z.lxor li fi)
             | _, _ => None
             end) /\
  (len data mod 2 = 1 ->
   round data F = Raise (InvalidBlockLength (len data))).
Proof.
  split; [|apply round_odd].
  intros Hev HF h left right.
  pose proof (len_nonneg data) as Hn.
  assert (Hh0 : 0 <= len data / 2) by (apply Z.div_pos; lia).
  assert (Hd : len data = 2 * (len data / 2)).
  { pose proof (Z.div_mod (len data) 2). lia. }
  assert (Hl : length left = h).
  { unfold left. rewrite length_firstn. unfold h, len in *. lia. }
  assert (Hr : length right = h).
  { unfold right. rewrite length_skipn. unfold h, len in *. lia. }
  assert (HFr : length (F right) = h).
  { assert (E : len (F right) = len data / 2).
    { apply HF. unfold len at 1. rewrite Hr. unfold h. lia. }
    unfold len at 1 in E. unfold h. lia. }
  split; [|split; [|split; [|split]]]; try assumption.
  - rewrite round_even by assumption.
    rewrite slice_from_skipn, slice_to_firstn by assumption. reflexivity.
  - rewrite xor_length, Hl, HFr. apply Nat.min_id.
  - intros i. apply xor_nth_error.
Qed.

Lemma round_spec_witness :
  (len [1; 2; 3; 4] mod 2 = 0 /\
   round [1; 2; 3; 4] (fun x => x) = Ok ([3; 4] ++ xor [1; 2] [3; 4])) /\
  (len [1; 2; 3] mod 2 = 1 /\
   round [1; 2; 3] (fun x => x) = Raise (InvalidBlockLength 3)).
Proof.
  split.
  - split; [reflexivity|].
    apply (proj1 (round_spec [1; 2; 3; 4] (fun x => x)));
      [reflexivity | intros x Hx; exact Hx].
  - split; [reflexivity|].
    apply (proj2 (round_spec [1; 2; 3] (fun x => x))). reflexivity.
Defined.

(** ** The rounds of one block *)

Lemma rounds_snoc (n : nat) (blk : bytes) (F : bytes -> bytes) :
  rounds (S n) blk F = (blk' <- rounds n blk F ;; round blk' F).
Proof.
  revert blk. induction n as [|n IH]; intros blk.
  - simpl. destruct (round blk F); reflexivity.
  - change (rounds (S (S n)) blk F)
      with (blk' <- round blk F ;; rounds (S n) blk' F).
    change (rounds (S n) blk F)
      with (blk' <- round blk F ;; rounds n blk' F).
    destruct (round blk F) as [blk1|e]; [|reflexivity].
    apply IH.
Qed.

Section Feistel.

(** The mixing function, and the length of a half that its output
    covers. *)
Variable F : bytes -> bytes.
Variable h : nat.
Hypothesis F_length : forall x, length x = h -> (h <= length (F x))%nat.

(** [n] rounds take a block of two [h]-byte halves to another, and the
    same [n] rounds on the exchanged halves of the result lead back to
    the exchanged halves of the block. *)
Lemma rounds_halves (n : nat) : forall a b,
  length a = h -> length b = h ->
  exists a' b',
    rounds n (a ++ b) F = Ok (a' ++ b') /\
    length a' = h /\ length b' = h /\
    rounds n (b' ++ a') F = Ok (b ++ a).
Proof.
  induction n as [|n IH]; intros a b Ha Hb.
  - exists a, b. simpl. auto.
  - pose proof (F_length b Hb) as HFb.
    assert (Hx : length (xor a (F b)) = h) by (rewrite xor_length; lia).
    destruct (IH b (xor a (F b)) Hb Hx) as (a' & b' & Hfw & Ha' & Hb' & Hbw).
    exists a', b'. split; [|split; [|split]]; try assumption.
    + simpl. rewrite round_halves by congruence. simpl. exact Hfw.
    + rewrite rounds_snoc, Hbw. simpl.
      rewrite round_halves by congruence.
      rewrite xor_cancel; [reflexivity | lia].
Qed.

(** The per-block transform undoes itself. *)
Lemma crypt_block_involution (r : Z) (blk : bytes) :
  length blk = (2 * h)%nat ->
  exists c, crypt_block blk F r = Ok c /\ length c = (2 * h)%nat /\
            crypt_block c F r = Ok blk.
Proof.
  intros Hl.
  assert (Hs : blk = firstn h blk ++ skipn h blk)
    by (symmetry; apply firstn_skipn).
  assert (Ha : length (firstn h blk) = h) by (rewrite length_firstn; lia).
  assert (Hb : length (skipn h blk) = h) by (rewrite length_skipn; lia).
  destruct (rounds_halves (Z.to_nat r) _ _ Ha Hb)
    as (a' & b' & Hfw & Ha' & Hb' & Hbw).
  rewrite <- Hs in Hfw.
  exists (b' ++ a'). unfold crypt_block.
  rewrite Hfw. simpl. rewrite flip_app by congruence.
  split; [reflexivity|]. split; [rewrite length_app; lia|].
  rewrite Hbw. simpl. rewrite flip_app by congruence.
  rewrite <- Hs. reflexivity.
Qed.

End Feistel.

(** C2: for a block [b] of [BLK_SIZE] bytes, [F] taking 16 bytes to 16
    bytes and [r >= 1], the [r] rounds succeed on [b] and on the flipped
    result, and [flip(round^r(flip(round^r(b)))) = b]. *)
Theorem block_self_inverse (b : bytes) (F : bytes -> bytes) (r : Z) :
  len b = BLK_SIZE ->
  (forall x, len x = 16 -> len (F x) = 16) ->
  1 <= r ->
  exists c c',
    rounds (Z.to_nat r) b F = Ok c /\
    rounds (Z.to_nat r) (flip c) F = Ok c' /\
    flip c' = b.
Proof.
  intros Hb HF _.
  assert (HF' : forall x, length x = 16%nat -> length (F x) = 16%nat).
  { intros x Hx. specialize (HF x). unfold len in HF. lia. }
  assert (Hs : b = firstn 16 b ++ skipn 16 b)
    by (symmetry; apply firstn_skipn).
  unfold len, BLK_SIZE in Hb.
  assert (Hl : length (firstn 16 b) = 16%nat) by (rewrite length_firstn; lia).
  assert (Hr : length (skipn 16 b) = 16%nat) by (rewrite length_skipn; lia).
  assert (HF16 : forall x, length x = 16%nat -> (16 <= length (F x))%nat).
  { intros x Hx. rewrite (HF' x Hx). apply Nat.le_refl. }
  destruct (rounds_halves F 16 HF16 (Z.to_nat r) _ _ Hl Hr)
    as (a' & b' & Hfw & Ha' & Hb' & Hbw).
  rewrite <- Hs in Hfw.
  exists (a' ++ b'), (skipn 16 b ++ firstn 16 b).
  split; [exact Hfw|].
  rewrite flip_app by congruence.
  split; [exact Hbw|].
  rewrite flip_app by congruence. symmetry. exact Hs.
Qed.

Lemma block_self_inverse_witness :
  exists c c',
    rounds (Z.to_nat 3) (repeat 5 32) F_sum = Ok c /\
    rounds (Z.to_nat 3) (flip c) F_sum = Ok c' /\
    flip c' = repeat 5 32.
Proof.
  apply (block_self_inverse (repeat 5 32) F_sum 3).
  - reflexivity.
  - intros x _. reflexivity.
  - lia.
Defined.

(** ** Splitting into blocks *)

Lemma blocks_nil : blocks [] = [].
Proof. reflexivity. Qed.

Lemma slice_whole {A} (l : list A) (stop : Z) :
  len l <= stop -> slice l 0 stop = l.
Proof.
  intros Hs. pose proof (len_nonneg l).
  change (slice l 0 stop) with (slice_to l stop).
  rewrite slice_to_firstn by lia.
  apply firstn_all2. unfold len in *. lia.
Qed.

(** A block-sized prefix is the slice [0 : BLK_SIZE]. *)
Lemma slice_app_head {A} (b rest : list A) :
  slice (b ++ rest) 0 (len b) = b.
Proof.
  change (slice (b ++ rest) 0 (len b)) with (slice_to (b ++ rest) (len b)).
  rewrite slice_to_firstn by apply len_nonneg.
  unfold len. rewrite Nat2Z.id.
  rewrite firstn_app, Nat.sub_diag, firstn_all. simpl. apply app_nil_r.
Qed.

(** Slices past a prefix are slices of what follows it. *)
Lemma slice_app_shift {A} (b rest : list A) (i j : Z) :
  0 <= i -> 0 <= j ->
  slice (b ++ rest) (len b + i) (len b + j) = slice rest i j.
Proof.
  intros Hi Hj. unfold slice.
  pose proof (len_nonneg b) as Hb. pose proof (len_nonneg rest) as Hr.
  rewrite !norm_index_nonneg by (rewrite ?len_app; lia).
  rewrite len_app.
  replace (Z.min (len b + i) (len b + len rest))
    with (len b + Z.min i (len rest)) by lia.
  replace (Z.min (len b + j) (len b + len rest))
    with (len b + Z.min j (len rest)) by lia.
  replace (len b + Z.min j (len rest) - (len b + Z.min i (len rest)))
    with (Z.min j (len rest) - Z.min i (len rest)) by lia.
  f_equal.
  replace (Z.to_nat (len b + Z.min i (len rest)))
    with (length b + Z.to_nat (Z.min i (len rest)))%nat
    by (unfold len; lia).
  rewrite skipn_app.
  rewrite skipn_all2 by lia. simpl. f_equal. lia.
Qed.

Lemma range_block_count (n : Z) :
  0 <= n ->
  Z.to_nat ((BLK_SIZE + n - 0 + BLK_SIZE - 1) / BLK_SIZE) =
  S (Z.to_nat ((n - 0 + BLK_SIZE - 1) / BLK_SIZE)).
Proof.
  intros Hn. unfold BLK_SIZE.
  replace (32 + n - 0 + 32 - 1) with (1 * 32 + (n - 0 + 32 - 1)) by lia.
  rewrite Z.div_add_l by lia.
  assert (0 <= (n - 0 + 32 - 1) / 32) by (apply Z.div_pos; lia).
  lia.
Qed.

(** The first block of a sequence that starts with [BLK_SIZE] bytes. *)
Lemma blocks_app (b rest : bytes) :
  len b = BLK_SIZE -> blocks (b ++ rest) = b :: blocks rest.
Proof.
  intros Hb. unfold blocks, range.
  rewrite len_app, Hb, range_block_count by apply len_nonneg.
  rewrite <- cons_seq, <- seq_shift. simpl map at 1.
  f_equal.
  - simpl. rewrite <- Hb. apply slice_app_head.
  - rewrite !map_map. apply map_ext. intros k.
    rewrite <- (slice_app_shift b rest (0 + Z.of_nat k * BLK_SIZE)
                  (0 + Z.of_nat k * BLK_SIZE + BLK_SIZE))
      by (unfold BLK_SIZE; lia).
    f_equal; rewrite Hb; lia.
Qed.

(** A short trailing sequence is one block. *)
Lemma blocks_short (t : bytes) :
  0 < len t <= BLK_SIZE -> blocks t = [t].
Proof.
  intros Ht. unfold blocks, range.
  replace ((len t - 0 + BLK_SIZE - 1) / BLK_SIZE) with 1.
  - simpl. f_equal. apply slice_whole. unfold BLK_SIZE in *. lia.
  - unfold BLK_SIZE in *.
    apply Z.div_unique with (r := len t - 1); lia.
Qed.

Lemma blocks_concat (bs : list bytes) (t : bytes) :
  Forall full_block bs ->
  blocks (concat bs ++ t) = bs ++ blocks t.
Proof.
  induction 1 as [|b bs Hb Hbs IH].
  - reflexivity.
  - simpl. rewrite <- app_assoc, blocks_app by assumption.
    f_equal. exact IH.
Qed.

(** Every sequence is a run of full blocks and a tail shorter than one. *)
Lemma chunks (k : nat) : forall data : bytes,
  (length data < (S k) * 32)%nat ->
  exists bs t, data = concat bs ++ t /\ Forall full_block bs /\
               0 <= len t < BLK_SIZE.
Proof.
  induction k as [|k IH]; intros data Hl.
  - exists [], data. simpl. split; [reflexivity|].
    split; [constructor|]. unfold len, BLK_SIZE. lia.
  - destruct (Nat.lt_ge_cases (length data) 32) as [Hlt | Hge].
    + exists [], data. simpl. split; [reflexivity|].
      split; [constructor|]. unfold len, BLK_SIZE. lia.
    + destruct (IH (skipn 32 data)) as (bs & t & Hd & Hbs & Ht).
      { rewrite length_skipn. lia. }
      exists (firstn 32 data :: bs), t.
      split; [|split; [|assumption]].
      * cbn [concat]. rewrite <- app_assoc, <- Hd.
        symmetry. apply firstn_skipn.
      * constructor; [|assumption].
        unfold full_block, len, BLK_SIZE. rewrite length_firstn. lia.
Qed.

Lemma len_concat_full (bs : list bytes) :
  Forall full_block bs -> len (concat bs) = BLK_SIZE * len bs.
Proof.
  induction 1 as [|b bs Hb Hbs IH].
  - reflexivity.
  - simpl concat. rewrite len_app, IH, Hb. unfold len. simpl length. lia.
Qed.

(** A sequence whose length is a multiple of [BLK_SIZE] is a run of full
    blocks. *)
Lemma aligned_chunks (data : bytes) :
  len data mod BLK_SIZE = 0 ->
  exists bs, data = concat bs /\ Forall full_block bs.
Proof.
  intros Hal.
  destruct (chunks (length data) data) as (bs & t & Hd & Hbs & Ht); [lia|].
  exists bs. split; [|assumption].
  assert (E : len t = 0).
  { rewrite Hd, len_app, len_concat_full in Hal by assumption.
    rewrite Z.add_comm, Z.mul_comm, Z.mod_add in Hal by (unfold BLK_SIZE; lia).
    rewrite Z.mod_small in Hal by assumption. exact Hal. }
  apply len_nil_iff in E. subst t. rewrite app_nil_r in Hd. exact Hd.
Qed.

(** ** [crypt] *)

Lemma crypt_loop_cons_ok (blk c : bytes) (blks : list bytes)
    (F : bytes -> bytes) (r : Z) (res : bytes) :
  crypt_block blk F r = Ok c ->
  crypt_loop (blk :: blks) F r res = crypt_loop blks F r (res ++ c).
Proof.
  unfold crypt_block. simpl.
  destruct (rounds (Z.to_nat r) blk F) as [blk'|e]; simpl; intros H.
  - injection H as <-. reflexivity.
  - discriminate.
Qed.

Section Driver.

Variable F : bytes -> bytes.
Variable r : Z.
Hypothesis F_half : forall x, len x = 16 -> len (F x) = 16.

Lemma F_half_length (x : bytes) :
  length x = 16%nat -> (16 <= length (F x))%nat.
Proof. intros Hx. specialize (F_half x). unfold len in F_half. lia. Qed.

(** The loop takes a run of full blocks to a run of full blocks, and
    takes that one back to the first. *)
Lemma crypt_loop_full (bs : list bytes) :
  Forall full_block bs ->
  exists cs,
    Forall full_block cs /\
    (forall res, crypt_loop bs F r res = Ok (res ++ concat cs)) /\
    (forall res, crypt_loop cs F r res = Ok (res ++ concat bs)).
Proof.
  induction 1 as [|b bs Hb Hbs (cs & Hcs & Hfw & Hbw)].
  - exists []. split; [constructor|].
    split; intros res; simpl; rewrite app_nil_r; reflexivity.
  - destruct (crypt_block_involution F 16 F_half_length r b)
      as (c & Hc & Hlc & Hcb).
    { unfold full_block, len, BLK_SIZE in Hb. lia. }
    exists (c :: cs). split; [|split].
    + constructor; [|assumption].
      unfold full_block, len, BLK_SIZE. lia.
    + intros res. rewrite (crypt_loop_cons_ok _ _ _ _ _ _ Hc), Hfw.
      cbn [concat]. rewrite app_assoc. reflexivity.
    + intros res. rewrite (crypt_loop_cons_ok _ _ _ _ _ _ Hcb), Hbw.
      cbn [concat]. rewrite app_assoc. reflexivity.
Qed.

End Driver.

Lemma blocks_of_full (bs : list bytes) :
  Forall full_block bs -> blocks (concat bs) = bs.
Proof.
  intros H. rewrite <- (app_nil_r (concat bs)).
  rewrite blocks_concat, blocks_nil by assumption. apply app_nil_r.
Qed.

(** C1: with [F] taking 16 bytes to 16 bytes and [r >= 1], encryption of
    any byte sequence [d] succeeds, and decrypting its result returns [d]:
    [crypt(crypt(d, F, false, r), F, true, r) == d]. *)
Theorem crypt_involution (d : bytes) (F : bytes -> bytes) (r : Z) :
  (forall x, len x = 16 -> len (F x) = 16) ->
  1 <= r ->
  exists c, crypt d F false r = Ok c /\ crypt c F true r = Ok d.
Proof.
  intros HF _.
  destruct (aligned_chunks (pad d) (len_pad_mod d)) as (bs & Hd & Hbs).
  destruct (crypt_loop_full F r HF bs Hbs) as (cs & Hcs & Hfw & Hbw).
  exists (concat cs). unfold crypt. split.
  - rewrite Hd, blocks_of_full, Hfw by assumption. reflexivity.
  - rewrite blocks_of_full, Hbw by assumption. simpl.
    rewrite <- Hd, pad_unfold, unpad_app_repeat; [reflexivity|].
    pose proof (pad_count_range d). lia.
Qed.

Lemma crypt_involution_witness :
  exists c, crypt [104; 105] F_sum false 32 = Ok c /\
            crypt c F_sum true 32 = Ok [104; 105].
Proof.
  apply (crypt_involution [104; 105] F_sum 32).
  - intros x _. reflexivity.
  - lia.
Defined.

(** C10: decrypting the empty sequence returns the empty sequence, for
    every mixing function and every round count. *)
Theorem crypt_decrypt_empty (F : bytes -> bytes) (r : Z) :
  crypt [] F true r = Ok [].
Proof. reflexivity. Qed.

(** *** Decrypting input that is not a run of full blocks *)

Example crypt_decrypt_two_bytes : crypt [1; 2] F_sum true 32 = Ok [].
Proof. vm_compute. reflexivity. Qed.

(** C4, as stated, fails: a two-byte input is decrypted as one short block
    and no exception is raised. *)
Lemma decrypt_short_input_accepted : ~ decrypt_refuses_bad_length.
Proof.
  intros H.
  destruct (H [1; 2] F_sum 32) as [e He].
  - intros [_ Hm]. vm_compute in Hm. discriminate.
  - rewrite crypt_decrypt_two_bytes in He. discriminate.
Qed.

Lemma crypt_loop_raises (F : bytes -> bytes) (r : Z) (t : bytes) (e : error) :
  rounds (Z.to_nat r) t F = Raise e ->
  forall bs res, exists e', crypt_loop (bs ++ [t]) F r res = Raise e'.
Proof.
  intros Ht bs. induction bs as [|b bs IH]; intros res.
  - exists e. simpl. rewrite Ht. reflexivity.
  - simpl. destruct (rounds (Z.to_nat r) b F) as [b'|e1]; simpl.
    + apply IH.
    + exists e1. reflexivity.
Qed.

(** With a mixing function that returns 16 bytes whatever it is given, as
    [hash_func] does, the rounds go through on every block of even length
    up to [BLK_SIZE]. *)
Lemma rounds_even_ok (F : bytes -> bytes) (n : nat) (blk : bytes) :
  (forall x, len (F x) = 16) ->
  len blk mod 2 = 0 -> len blk <= BLK_SIZE ->
  exists out, rounds n blk F = Ok out.
Proof.
  intros HF Hev Hle.
  destruct (even_split blk Hev) as (a & b & Hblk & Hab & Ha).
  assert (Hh : (length b <= 16)%nat).
  { rewrite <- Hab. subst blk. rewrite len_app in Hle.
    unfold len, BLK_SIZE in Hle. lia. }
  assert (HFh : forall x, length x = length b -> (length b <= length (F x))%nat).
  { intros x _. specialize (HF x). unfold len in HF. lia. }
  destruct (rounds_halves F (length b) HFh n a b Hab eq_refl)
    as (a' & b' & Hfw & _).
  exists (a' ++ b'). subst blk. exact Hfw.
Qed.

Lemma crypt_loop_even_ok (F : bytes -> bytes) (r : Z) (blks : list bytes) :
  (forall x, len (F x) = 16) ->
  Forall (fun b => len b mod 2 = 0 /\ len b <= BLK_SIZE) blks ->
  forall res, exists out, crypt_loop blks F r res = Ok out.
Proof.
  intros HF. induction 1 as [|b blks [Hev Hle] Hblks IH]; intros res.
  - exists res. reflexivity.
  - destruct (rounds_even_ok F (Z.to_nat r) b HF Hev Hle) as [b' Hb'].
    simpl. rewrite Hb'. simpl. apply IH.
Qed.

(** The parity of a sequence is the parity of what follows its full
    blocks. *)
Lemma tail_parity (bs : list bytes) (t : bytes) :
  Forall full_block bs -> len (concat bs ++ t) mod 2 = len t mod 2.
Proof.
  intros Hbs. rewrite len_app, len_concat_full by assumption.
  unfold BLK_SIZE.
  rewrite <- (Z.mod_add (len t) (16 * len bs) 2) by lia.
  f_equal. unfold bytes. lia.
Qed.

(** C4, amended: in the decrypt direction [crypt] checks no length.  With
    [r >= 1] it raises the exception of [round] whenever the length of the
    input is odd, for any mixing function; and whenever the length is even,
    a multiple of [BLK_SIZE] or not, it raises nothing, for a mixing
    function that returns 16 bytes on every input. *)
Theorem crypt_decrypt_length (data : bytes) (F : bytes -> bytes) (r : Z) :
  1 <= r ->
  (len data mod 2 = 1 ->
   exists L, crypt data F true r = Raise (InvalidBlockLength L)) /\
  ((forall x, len (F x) = 16) -> len data mod 2 = 0 ->
   exists out, crypt data F true r = Ok out).
Proof.
  intros Hr.
  destruct (chunks (length data) data) as (bs & t & Hd & Hbs & Ht); [lia|].
  pose proof (tail_parity bs t Hbs) as Hpar. rewrite <- Hd in Hpar.
  split.
  - intros Hodd. rewrite Hpar in Hodd.
    assert (Htp : 0 < len t).
    { destruct (Z.eq_dec (len t) 0) as [E | NE]; [|lia].
      rewrite E in Hodd. discriminate. }
    assert (Hrt : rounds (Z.to_nat r) t F = Raise (InvalidBlockLength (len t))).
    { destruct (Z.to_nat r) as [|n] eqn:En; [lia|].
      simpl. rewrite round_odd by assumption. reflexivity. }
    destruct (crypt_loop_raises F r t _ Hrt bs []) as [[L] HL].
    exists L. unfold crypt.
    rewrite Hd, blocks_concat, blocks_short by (assumption || lia).
    rewrite HL. reflexivity.
  - intros HF Hev. rewrite Hpar in Hev.
    assert (Hall : Forall (fun b => len b mod 2 = 0 /\ len b <= BLK_SIZE)
                          (blocks data)).
    { rewrite Hd, blocks_concat by assumption. apply Forall_app. split.
      - apply Forall_impl with (2 := Hbs). intros b Hb.
        unfold full_block in Hb. rewrite Hb. split; [reflexivity | lia].
      - destruct (Z.eq_dec (len t) 0) as [E | NE].
        + apply len_nil_iff in E. subst t. constructor.
        + rewrite blocks_short by lia. constructor; [|constructor].
          split; [assumption | lia]. }
    destruct (crypt_loop_even_ok F r _ HF Hall []) as [out Hout].
    exists (unpad out). unfold crypt. rewrite Hout. reflexivity.
Qed.

Lemma crypt_decrypt_length_witness :
  (exists L, crypt (repeat 9 33) F_sum true 32 = Raise (InvalidBlockLength L)) /\
  (exists out, crypt (repeat 9 34) F_sum true 32 = Ok out).
Proof.
  split.
  - apply (crypt_decrypt_length (repeat 9 33) F_sum 32); [lia | reflexivity].
  - apply (crypt_decrypt_length (repeat 9 34) F_sum 32);
      [lia | intros x; reflexivity | reflexivity].
Defined.

(** A last byte of zero reaches [unpad] through [crypt]: a block of zero
    bytes decrypts to a block of zero bytes, which [unpad] empties. *)
Example crypt_decrypt_zero_block :
  crypt (repeat 0 32) F_sum true 32 = Ok [] /\
  unpad_spec (repeat 0 32) = repeat 0 32.
Proof. split; vm_compute; reflexivity. Qed.

Example crypt_decrypt_33_bytes :
  crypt (repeat 9 33) F_sum true 32 = Raise (InvalidBlockLength 1).
Proof. vm_compute. reflexivity. Qed.

(** * Further properties of the cipher *)

(** ** The block loop *)

(** The accumulator only prefixes what the loop produces. *)
Lemma crypt_loop_acc (F : bytes -> bytes) (r : Z) (bs : list bytes) :
  forall res,
    crypt_loop bs F r res = (o <- crypt_loop bs F r [] ;; Ok (res ++ o)).
Proof.
  induction bs as [|b bs IH]; intros res.
  - simpl. rewrite app_nil_r. reflexivity.
  - simpl. destruct (rounds (Z.to_nat r) b F) as [b'|e]; simpl; [|reflexivity].
    rewrite (IH (res ++ flip b')), (IH (flip b')).
    destruct (crypt_loop bs F r []) as [o|e]; simpl; [|reflexivity].
    rewrite app_assoc. reflexivity.
Qed.

Lemma crypt_loop_app (F : bytes -> bytes) (r : Z) (bs1 bs2 : list bytes) :
  forall res,
    crypt_loop (bs1 ++ bs2) F r res =
    (res1 <- crypt_loop bs1 F r res ;; crypt_loop bs2 F r res1).
Proof.
  induction bs1 as [|b bs1 IH]; intros res.
  - reflexivity.
  - simpl. destruct (rounds (Z.to_nat r) b F) as [b'|e]; simpl; [|reflexivity].
    apply IH.
Qed.

(** The blocks of a sequence: its full blocks, then its tail if it has
    one. *)
Lemma blocks_chunks (data : bytes) :
  exists bs t,
    data = concat bs ++ t /\ Forall full_block bs /\ 0 <= len t < BLK_SIZE /\
    blocks data = bs ++ (if len t =? 0 then [] else [t]).
Proof.
  destruct (chunks (length data) data) as (bs & t & Hd & Hbs & Ht); [lia|].
  exists bs, t. split; [assumption|]. split; [assumption|].
  split; [assumption|].
  rewrite Hd at 1. rewrite blocks_concat by assumption. f_equal.
  destruct (Z.eqb_spec (len t) 0) as [E | NE].
  - apply len_nil_iff in E. subst t. reflexivity.
  - apply blocks_short. lia.
Qed.

(** X1: the split of [crypt] loses nothing and invents nothing: the blocks,
    concatenated, are the data; every block holds between 1 and [BLK_SIZE]
    bytes; and there are [ceil(len(data) / BLK_SIZE)] of them. *)
Theorem blocks_partition (data : bytes) :
  concat (blocks data) = data /\
  Forall (fun b => 0 < len b <= BLK_SIZE) (blocks data) /\
  len (blocks data) = (len data + BLK_SIZE - 1) / BLK_SIZE.
Proof.
  destruct (blocks_chunks data) as (bs & t & Hd & Hbs & Ht & Hb).
  assert (Hfull : Forall (fun b : bytes => 0 < len b <= BLK_SIZE) bs).
  { apply Forall_impl with (2 := Hbs). intros b Eb.
    unfold full_block in Eb. rewrite Eb. unfold BLK_SIZE. lia. }
  pose proof (len_concat_full bs Hbs) as Hlen.
  assert (Hld : len data = BLK_SIZE * len bs + len t).
  { rewrite Hd at 1. rewrite len_app, Hlen. reflexivity. }
  rewrite Hb, Hld. unfold BLK_SIZE in *.
  destruct (Z.eqb_spec (len t) 0) as [E | NE].
  - apply len_nil_iff in E. subst t.
    rewrite !app_nil_r in *. split; [symmetry; exact Hd|].
    split; [exact Hfull|].
    apply Z.div_unique with (r := 31); unfold bytes, len; simpl; lia.
  - split; [rewrite concat_app; simpl; rewrite app_nil_r; symmetry; exact Hd|].
    split.
    + apply Forall_app. split; [exact Hfull|].
      constructor; [lia | constructor].
    + rewrite len_app. change (len [t]) with 1.
      apply Z.div_unique with (r := len t - 1); unfold bytes; lia.
Qed.

(** ** Lengths *)

Lemma len_firstn_le {A} (l : list A) (k : nat) : len (firstn k l) <= len l.
Proof. unfold len. rewrite length_firstn. lia. Qed.

Lemma slice_to_prefix {A} (l : list A) (stop : Z) :
  exists k, slice_to l stop = firstn k l.
Proof.
  destruct (Z.lt_ge_cases stop 0) as [Hn | Hp].
  - eexists. apply slice_to_neg. assumption.
  - eexists. apply slice_to_firstn. assumption.
Qed.

Lemma unpad_prefix (data : bytes) : exists k, unpad data = firstn k data.
Proof.
  unfold unpad. destruct (len data =? 0).
  - exists (length data). symmetry. apply firstn_all.
  - apply slice_to_prefix.
Qed.

Lemma len_flip (data : bytes) : len (flip data) = len data.
Proof. unfold len. rewrite flip_length. reflexivity. Qed.

(** X2: on a block of even length [L], for any mixing function, [round]
    returns [L/2 + min(L/2, len(F(right)))] bytes: a short output of [F]
    shortens the block, a long one is cut, and the block never grows. *)
Theorem round_length (data : bytes) (F : bytes -> bytes) :
  len data mod 2 = 0 ->
  exists out,
    round data F = Ok out /\
    len out = len data / 2 +
              Z.min (len data / 2)
                    (len (F (skipn (Z.to_nat (len data / 2)) data))) /\
    len out <= len data.
Proof.
  intros Hev.
  destruct (even_split data Hev) as (a & b & Hd & Hab & Ha).
  assert (Hb : len b = len data / 2) by (unfold len in *; lia).
  assert (Hsk : skipn (Z.to_nat (len data / 2)) data = b).
  { rewrite <- Ha, Hd. unfold len. rewrite Nat2Z.id.
    rewrite skipn_app, Nat.sub_diag, skipn_all. reflexivity. }
  exists (b ++ xor a (F b)).
  split; [rewrite Hd; apply round_halves; assumption|].
  rewrite Hsk, len_app.
  assert (Hx : len (xor a (F b)) = Z.min (len data / 2) (len (F b))).
  { unfold len at 1. rewrite xor_length. unfold len in *. lia. }
  rewrite Hx, Hb. split; [reflexivity|].
  rewrite Hd at 3. rewrite len_app. lia.
Qed.

Lemma round_length_witness :
  exists out,
    round [1; 2; 3; 4] (fun _ => [9]) = Ok out /\
    len out = len [1; 2; 3; 4] / 2 +
              Z.min (len [1; 2; 3; 4] / 2)
                    (len ((fun _ : bytes => [9])
                            (skipn (Z.to_nat (len [1; 2; 3; 4] / 2))
                                   [1; 2; 3; 4]))) /\
    len out <= len [1; 2; 3; 4].
Proof. apply (round_length [1; 2; 3; 4] (fun _ => [9])). reflexivity. Defined.

Lemma round_le (data out : bytes) (F : bytes -> bytes) :
  round data F = Ok out -> len out <= len data.
Proof.
  intros H.
  destruct (Z.eq_dec (len data mod 2) 0) as [Hev | Hodd].
  - destruct (even_split data Hev) as (a & b & Hd & Hab & _).
    subst data. rewrite round_halves in H by assumption.
    injection H as <-. rewrite !len_app.
    unfold len. rewrite xor_length. lia.
  - assert (Hm : len data mod 2 = 1)
      by (pose proof (Z.mod_pos_bound (len data) 2); lia).
    rewrite round_odd in H by assumption. discriminate.
Qed.

Lemma rounds_le (F : bytes -> bytes) (n : nat) :
  forall blk out, rounds n blk F = Ok out -> len out <= len blk.
Proof.
  induction n as [|n IH]; intros blk out H.
  - injection H as <-. lia.
  - simpl in H. destruct (round blk F) as [blk'|e] eqn:E; [|discriminate].
    simpl in H. apply IH in H. apply round_le in E. lia.
Qed.

Lemma crypt_loop_le (F : bytes -> bytes) (r : Z) (bs : list bytes) :
  forall res out,
    crypt_loop bs F r res = Ok out -> len out <= len res + len (concat bs).
Proof.
  induction bs as [|b bs IH]; intros res out H.
  - injection H as <-. simpl. unfold len at 3. simpl. lia.
  - simpl in H.
    destruct (rounds (Z.to_nat r) b F) as [b'|e] eqn:E; [|discriminate].
    simpl in H. apply IH in H. apply rounds_le in E.
    rewrite len_app, len_flip in H. simpl concat. rewrite len_app. lia.
Qed.

(** X3: whatever the mixing function and the round count, a decryption
    that returns does not return more bytes than it was given. *)
Theorem crypt_decrypt_no_longer (data out : bytes) (F : bytes -> bytes)
    (r : Z) :
  crypt data F true r = Ok out -> len out <= len data.
Proof.
  unfold crypt. intros H.
  destruct (crypt_loop (blocks data) F r []) as [res|e] eqn:E; [|discriminate].
  simpl in H. injection H as <-.
  apply crypt_loop_le in E.
  destruct (blocks_chunks data) as (bs & t & Hd & _ & _ & Hb).
  assert (Hc : concat (blocks data) = data).
  { rewrite Hb, concat_app, Hd at 1. f_equal.
    destruct (Z.eqb_spec (len t) 0) as [E0 | NE].
    - apply len_nil_iff in E0. subst t. reflexivity.
    - simpl. apply app_nil_r. }
  rewrite Hc in E. change (len (@nil Z)) with 0 in E.
  destruct (unpad_prefix res) as [k ->].
  pose proof (len_firstn_le res k). lia.
Qed.

Lemma crypt_decrypt_no_longer_witness :
  crypt (repeat 0 32) F_sum true 32 = Ok [] /\
  len (@nil Z) <= len (repeat 0 32).
Proof.
  assert (H : crypt (repeat 0 32) F_sum true 32 = Ok [])
    by (vm_compute; reflexivity).
  split; [exact H|].
  apply (crypt_decrypt_no_longer (repeat 0 32) [] F_sum 32 H).
Defined.

(** ** Zero rounds *)

Lemma crypt_loop_no_rounds (F : bytes -> bytes) (r : Z) (bs : list bytes) :
  r <= 0 ->
  forall res, crypt_loop bs F r res = Ok (res ++ concat (map flip bs)).
Proof.
  intros Hr. induction bs as [|b bs IH]; intros res.
  - simpl. rewrite app_nil_r. reflexivity.
  - simpl. replace (Z.to_nat r) with O by lia. simpl.
    rewrite IH, app_assoc. reflexivity.
Qed.

(** X4: with a round count of zero or less the loop over [range(r)] is
    empty: [crypt] never calls the mixing function and never raises, and
    what it returns is the (padded) data with the halves of every block
    exchanged, unpadded when decrypting. *)
Theorem crypt_no_rounds (data : bytes) (F : bytes -> bytes) (decrypt : bool)
    (r : Z) :
  r <= 0 ->
  crypt data F decrypt r =
  Ok (let x := concat (map flip (blocks (if decrypt then data else pad data)))
      in if decrypt then unpad x else x).
Proof.
  intros Hr. unfold crypt.
  rewrite crypt_loop_no_rounds by assumption. reflexivity.
Qed.

Lemma crypt_no_rounds_witness :
  crypt [1; 2; 3] F_sum true 0 =
  Ok (let x := concat (map flip (blocks [1; 2; 3])) in unpad x).
Proof. apply (crypt_no_rounds [1; 2; 3] F_sum true 0). lia. Defined.

(** ** Blocks are enciphered one by one *)

Lemma pad_count_app (p d : bytes) :
  len p mod BLK_SIZE = 0 -> pad_count (p ++ d) = pad_count d.
Proof.
  intros Hp. unfold pad_count. rewrite len_app. f_equal.
  unfold BLK_SIZE in *.
  pose proof (Z.div_mod (len p) 32 ltac:(lia)) as Hdm.
  replace (len p + len d) with (len d + (len p / 32) * 32) by lia.
  apply Z.mod_add. lia.
Qed.

Lemma pad_app (p d : bytes) :
  len p mod BLK_SIZE = 0 -> pad (p ++ d) = p ++ pad d.
Proof.
  intros Hp. rewrite !pad_unfold, pad_count_app by assumption.
  symmetry. apply app_assoc.
Qed.

(** X5: the cipher has no chaining between blocks.  When [p] is a whole
    number of blocks, the encryption of [p ++ d] is the transform of the
    blocks of [p] followed by the encryption of [d], and it raises exactly
    when one of the two does. *)
Theorem crypt_encrypt_app (p d : bytes) (F : bytes -> bytes) (r : Z) :
  len p mod BLK_SIZE = 0 ->
  crypt (p ++ d) F false r =
  (cp <- crypt_loop (blocks p) F r [] ;;
   cd <- crypt d F false r ;;
   Ok (cp ++ cd)).
Proof.
  intros Hp.
  destruct (aligned_chunks p Hp) as (bs & -> & Hbs).
  unfold crypt. rewrite pad_app by assumption.
  rewrite blocks_concat, blocks_of_full by assumption.
  rewrite crypt_loop_app.
  destruct (crypt_loop bs F r []) as [cp|e]; simpl; [|reflexivity].
  rewrite crypt_loop_acc.
  destruct (crypt_loop (blocks (pad d)) F r []) as [cd|e]; reflexivity.
Qed.

Lemma crypt_encrypt_app_witness :
  crypt (repeat 7 32 ++ [1; 2]) F_sum false 2 =
  (cp <- crypt_loop (blocks (repeat 7 32)) F_sum 2 [] ;;
   cd <- crypt [1; 2] F_sum false 2 ;;
   Ok (cp ++ cd)).
Proof. apply (crypt_encrypt_app (repeat 7 32) [1; 2] F_sum 2). reflexivity. Defined.

(** ** Encryption with a mixing function on 16-byte halves *)

Section Halves.

Variable F : bytes -> bytes.
Variable r : Z.
Hypothesis F_half : forall x, len x = 16 -> len (F x) = 16.

(** The loop maps the sequences that are whole numbers of blocks to
    themselves, keeps their length, and undoes itself on them. *)
Lemma crypt_loop_aligned (data : bytes) :
  len data mod BLK_SIZE = 0 ->
  exists x,
    crypt_loop (blocks data) F r [] = Ok x /\
    len x = len data /\
    crypt_loop (blocks x) F r [] = Ok data.
Proof.
  intros Hal.
  destruct (aligned_chunks data Hal) as (bs & -> & Hbs).
  destruct (crypt_loop_full F r F_half bs Hbs) as (cs & Hcs & Hfw & Hbw).
  exists (concat cs).
  rewrite !blocks_of_full by assumption.
  split; [apply Hfw|]. split; [|apply Hbw].
  pose proof (crypt_loop_le F r bs [] _ (Hfw [])) as H1.
  pose proof (crypt_loop_le F r cs [] _ (Hbw [])) as H2.
  change (len (@nil Z)) with 0 in H1, H2. simpl app in H1, H2. lia.
Qed.

Lemma crypt_encrypt_ok (d : bytes) :
  exists c,
    crypt d F false r = Ok c /\ len c = len (pad d) /\
    crypt c F true r = Ok d.
Proof.
  destruct (crypt_loop_aligned (pad d) (len_pad_mod d)) as (x & Hx & Hl & Hb).
  exists x. unfold crypt. rewrite Hx, Hb. simpl.
  split; [reflexivity|]. split; [assumption|].
  rewrite pad_unfold, unpad_app_repeat; [reflexivity|].
  pose proof (pad_count_range d). lia.
Qed.

End Halves.

(** X6: with [F] taking 16 bytes to 16 bytes, and for every round count,
    the ciphertext of [d] is [BLK_SIZE * (len(d) div BLK_SIZE + 1)] bytes
    long: the length of the padded message, a positive multiple of
    [BLK_SIZE]. *)
Theorem crypt_encrypt_length (d : bytes) (F : bytes -> bytes) (r : Z) :
  (forall x, len x = 16 -> len (F x) = 16) ->
  exists c,
    crypt d F false r = Ok c /\
    len c = BLK_SIZE * (len d / BLK_SIZE + 1) /\
    len c = len (pad d).
Proof.
  intros HF.
  destruct (crypt_encrypt_ok F r HF d) as (c & Hc & Hl & _).
  exists c. split; [assumption|]. split; [|assumption].
  rewrite Hl, len_pad. unfold pad_count, BLK_SIZE.
  pose proof (Z.div_mod (len d) 32 ltac:(lia)). lia.
Qed.

Lemma crypt_encrypt_length_witness :
  exists c,
    crypt [1; 2; 3] F_sum false 32 = Ok c /\
    len c = BLK_SIZE * (len [1; 2; 3] / BLK_SIZE + 1) /\
    len c = len (pad [1; 2; 3]).
Proof.
  apply (crypt_encrypt_length [1; 2; 3] F_sum 32). intros x _. reflexivity.
Defined.



(** X8: with [F] taking 16 bytes to 16 bytes, the decrypt direction never
    raises on an input that is a whole number of blocks: it returns the
    unpadding of a sequence [x] of the length of the input, and the same
    rounds take the blocks of [x] back to the input. *)
Theorem crypt_decrypt_aligned (data : bytes) (F : bytes -> bytes) (r : Z) :
  (forall x, len x = 16 -> len (F x) = 16) ->
  len data mod BLK_SIZE = 0 ->
  exists x,
    crypt data F true r = Ok (unpad x) /\
    len x = len data /\
    crypt_loop (blocks x) F r [] = Ok data.
Proof.
  intros HF Hal.
  destruct (crypt_loop_aligned F r HF data Hal) as (x & Hx & Hl & Hb).
  exists x. unfold crypt. rewrite Hx. auto.
Qed.

Lemma crypt_decrypt_aligned_witness :
  exists x,
    crypt (repeat 1 64) F_sum true 3 = Ok (unpad x) /\
    len x = len (repeat 1 64) /\
    crypt_loop (blocks x) F_sum 3 [] = Ok (repeat 1 64).
Proof.
  apply (crypt_decrypt_aligned (repeat 1 64) F_sum 3);
    [intros x _; reflexivity | reflexivity].
Defined.

(** X9: with [F] taking 16 bytes to 16 bytes and [r >= 1], decrypting an
    input of odd length raises with the size of the trailing block,
    [len(data) mod BLK_SIZE], in the exception: the full blocks before it
    go through. *)
Theorem crypt_decrypt_odd_reports_tail (data : bytes) (F : bytes -> bytes)
    (r : Z) :
  (forall x, len x = 16 -> len (F x) = 16) ->
  1 <= r ->
  len data mod 2 = 1 ->
  crypt data F true r = Raise (InvalidBlockLength (len data mod BLK_SIZE)).
Proof.
  intros HF Hr Hodd.
  destruct (blocks_chunks data) as (bs & t & Hd & Hbs & Ht & Hb).
  pose proof (tail_parity bs t Hbs) as Hpar. rewrite <- Hd, Hodd in Hpar.
  assert (Hmod : len data mod BLK_SIZE = len t).
  { rewrite Hd, len_app, len_concat_full by assumption.
    rewrite Z.add_comm, Z.mul_comm, Z.mod_add by (unfold BLK_SIZE; lia).
    apply Z.mod_small. assumption. }
  destruct (Z.eqb_spec (len t) 0) as [E | NE].
  { rewrite E in Hpar. discriminate. }
  destruct (crypt_loop_full F r HF bs Hbs) as (cs & _ & Hfw & _).
  unfold crypt. rewrite Hb, crypt_loop_app, Hfw, Hmod. simpl.
  destruct (Z.to_nat r) as [|n] eqn:En; [lia|].
  simpl. rewrite round_odd by (symmetry; assumption). reflexivity.
Qed.

Lemma crypt_decrypt_odd_reports_tail_witness :
  crypt (repeat 4 35) F_sum true 2 =
  Raise (InvalidBlockLength (len (repeat 4 35) mod BLK_SIZE)).
Proof.
  apply (crypt_decrypt_odd_reports_tail (repeat 4 35) F_sum 2);
    [intros x _; reflexivity | lia | reflexivity].
Defined.

(** ** Padding *)

(** X10: [pad] is injective: the padded message determines the message. *)
Theorem pad_injective (d1 d2 : bytes) : pad d1 = pad d2 -> d1 = d2.
Proof.
  intros H.
  assert (Hu : forall d, unpad (pad d) = d).
  { intros d. rewrite pad_unfold. apply unpad_app_repeat.
    pose proof (pad_count_range d). lia. }
  rewrite <- (Hu d1), <- (Hu d2), H. reflexivity.
Qed.

Lemma pad_injective_witness : pad [1; 2] = pad [1; 2] /\ [1; 2] = [1; 2].
Proof.
  split; [reflexivity|]. apply (pad_injective [1; 2] [1; 2]). reflexivity.
Defined.

(** X11: [unpad] returns a prefix of its input and raises nothing, whatever
    the last byte is; when the last byte is at least the length of the
    input, the prefix is empty. *)
Theorem unpad_prefix_of_input (data : bytes) :
  (exists suffix, data = unpad data ++ suffix) /\
  len (unpad data) <= len data /\
  (len data <= last_byte data -> unpad data = []).
Proof.
  destruct (unpad_prefix data) as [k Hk].
  split; [|split].
  - exists (skipn k data). rewrite Hk. symmetry. apply firstn_skipn.
  - rewrite Hk. apply len_firstn_le.
  - intros Hm. unfold unpad.
    destruct (Z.eqb_spec (len data) 0) as [E | NE].
    + apply len_nil_iff. assumption.
    + pose proof (len_nonneg data).
      rewrite slice_to_neg by lia.
      replace (Z.to_nat (len data + - last_byte data)) with O by lia.
      reflexivity.
Qed.

Lemma unpad_prefix_of_input_witness :
  len [1; 2; 200] <= last_byte [1; 2; 200] /\ unpad [1; 2; 200] = [].
Proof.
  split; [vm_compute; discriminate|].
  apply (unpad_prefix_of_input [1; 2; 200]). vm_compute. discriminate.
Defined.

(** ** [flip] on every input *)

Lemma flip_skipn_firstn (data : bytes) :
  flip data = skipn (Z.to_nat (len data / 2)) data ++
              firstn (Z.to_nat (len data / 2)) data.
Proof.
  unfold flip. pose proof (len_nonneg data).
  assert (0 <= len data / 2) by (apply Z.div_pos; lia).
  rewrite slice_from_skipn, slice_to_firstn by assumption. reflexivity.
Qed.

(** X12: [flip] only rearranges: for every input, of even length or not,
    the result is a permutation of the input, of the same length. *)
Theorem flip_permutation (data : bytes) :
  Permutation data (flip data) /\ len (flip data) = len data.
Proof.
  split; [|apply len_flip].
  rewrite flip_skipn_firstn.
  rewrite <- (firstn_skipn (Z.to_nat (len data / 2)) data) at 1.
  apply Permutation_app_comm.
Qed.

(** X13: on an input of odd length the middle byte goes with the second
    half: [flip(A || x || B) = x || B || A] when [|A| = |B|]; so [flip]
    is not its own inverse there: a second [flip] gives the input rotated
    by one place, its last byte first. *)
Theorem flip_odd (a b : bytes) (x : Z) :
  length a = length b ->
  flip (a ++ x :: b) = x :: b ++ a /\
  flip (flip (a ++ x :: b)) = last (x :: b) 0 :: a ++ removelast (x :: b).
Proof.
  intros Hab.
  assert (Hhalf : forall (u v : bytes) (y : Z),
             length u = length v ->
             flip (u ++ y :: v) = (y :: v) ++ u).
  { intros u v y Huv. rewrite flip_skipn_firstn.
    assert (E : Z.to_nat (len (u ++ y :: v) / 2) = length u).
    { rewrite len_app. unfold len. simpl length. rewrite <- Huv.
      replace (Z.of_nat (length u) + Z.of_nat (S (length u)))
        with (1 + Z.of_nat (length u) * 2) by lia.
      rewrite Z.div_add by lia. simpl. lia. }
    rewrite E, skipn_app, firstn_app, Nat.sub_diag, skipn_all, firstn_all.
    simpl. rewrite app_nil_r. reflexivity. }
  split; [apply Hhalf; assumption|].
  rewrite Hhalf by assumption.
  set (w := x :: b).
  assert (Hw : w = removelast w ++ [last w 0])
    by (apply app_removelast_last; discriminate).
  assert (Hl : length (removelast w) = length a).
  { pose proof (f_equal (@length Z) Hw) as Hlen.
    rewrite length_app in Hlen.
    change (length w) with (S (length b)) in Hlen.
    change (length [last w 0]) with 1%nat in Hlen. lia. }
  rewrite Hw at 1. rewrite <- app_assoc. simpl app.
  rewrite Hhalf by assumption. reflexivity.
Qed.

Lemma flip_odd_witness :
  length [1; 2] = length [4; 5] /\
  flip ([1; 2] ++ 3 :: [4; 5]) = 3 :: [4; 5] ++ [1; 2] /\
  flip (flip ([1; 2] ++ 3 :: [4; 5])) = [5; 1; 2; 3; 4].
Proof.
  split; [reflexivity|].
  apply (flip_odd [1; 2] [4; 5] 3). reflexivity.
Defined.

(** ** [xor] as an operation *)

Lemma xor_comm (a b : bytes) : xor a b = xor b a.
Proof.
  revert b. induction a as [|x a IH]; intros b.
  - rewrite xor_nil_r. reflexivity.
  - destruct b as [|y b]; [reflexivity|].
    rewrite !xor_cons, Z.lxor_comm, IH. reflexivity.
Qed.

Lemma xor_self (a : bytes) : xor a a = repeat 0 (length a).
Proof.
  induction a as [|x a IH]; [reflexivity|].
  rewrite xor_cons, Z.lxor_nilpotent, IH. reflexivity.
Qed.

(** X14: [xor] is commutative, a sequence XOR-ed with itself is all
    zeros, and XOR-ing [b] in twice gives [a] back as long as [b] is at
    least as long as [a] (otherwise the result is cut to [len(b)]). *)
Theorem xor_algebra (a b : bytes) :
  xor a b = xor b a /\
  xor a a = repeat 0 (length a) /\
  xor (xor a b) b = firstn (length b) a /\
  ((length a <= length b)%nat -> xor (xor a b) b = a).
Proof.
  split; [apply xor_comm|]. split; [apply xor_self|].
  split; [|apply xor_cancel].
  revert b. induction a as [|x a IH]; intros b.
  - simpl. rewrite firstn_nil. reflexivity.
  - destruct b as [|y b]; [reflexivity|].
    rewrite !xor_cons. simpl firstn. f_equal; [|apply IH].
    rewrite Z.lxor_assoc, Z.lxor_nilpotent. apply Z.lxor_0_r.
Qed.

Lemma xor_algebra_witness :
  (length [1; 2] <= length [7; 8; 9])%nat /\
  xor (xor [1; 2] [7; 8; 9]) [7; 8; 9] = [1; 2].
Proof.
  split; [simpl; lia|].
  apply (xor_algebra [1; 2] [7; 8; 9]). simpl. lia.
Defined.

(** ** The Feistel identity at any width *)

(** X15: the identity behind decryption does not depend on [BLK_SIZE] or
    on [F] keeping lengths: for a block of any even length [L] and any
    number of rounds, if [F] returns at least [L/2] bytes for [L/2] bytes,
    the rounds succeed, keep the length, and
    [flip(round^n(flip(round^n(blk)))) = blk]. *)
Theorem feistel_self_inverse (blk : bytes) (F : bytes -> bytes) (n : nat) :
  len blk mod 2 = 0 ->
  (forall x, len x = len blk / 2 -> len blk / 2 <= len (F x)) ->
  exists c c',
    rounds n blk F = Ok c /\ len c = len blk /\
    rounds n (flip c) F = Ok c' /\
    flip c' = blk.
Proof.
  intros Hev HF.
  destruct (even_split blk Hev) as (a & b & Hblk & Hab & Ha).
  assert (HFh : forall x, length x = length b -> (length b <= length (F x))%nat).
  { intros x Hx. specialize (HF x). unfold len in *. lia. }
  destruct (rounds_halves F (length b) HFh n a b Hab eq_refl)
    as (a' & b' & Hfw & Ha' & Hb' & Hbw).
  exists (a' ++ b'), (b ++ a). subst blk.
  split; [exact Hfw|].
  split; [rewrite !len_app; unfold len; lia|].
  rewrite flip_app by congruence.
  split; [exact Hbw|].
  apply flip_app. symmetry. assumption.
Qed.

Lemma feistel_self_inverse_witness :
  exists c c',
    rounds 5 [1; 2; 3; 4; 5; 6] F_sum = Ok c /\
    len c = len [1; 2; 3; 4; 5; 6] /\
    rounds 5 (flip c) F_sum = Ok c' /\
    flip c' = [1; 2; 3; 4; 5; 6].
Proof.
  apply (feistel_self_inverse [1; 2; 3; 4; 5; 6] F_sum 5).
  - reflexivity.
  - intros x _. vm_compute. discriminate.
Defined.

(** ** Bytes stay bytes *)

Lemma is_bytes_firstn (l : bytes) (k : nat) :
  is_bytes l -> is_bytes (firstn k l).
Proof.
  unfold is_bytes. intros H.
  rewrite <- (firstn_skipn k l) in H. apply Forall_app in H. tauto.
Qed.

Lemma is_bytes_skipn (l : bytes) (k : nat) :
  is_bytes l -> is_bytes (skipn k l).
Proof.
  unfold is_bytes. intros H.
  rewrite <- (firstn_skipn k l) in H. apply Forall_app in H. tauto.
Qed.

Lemma is_bytes_slice (l : bytes) (start stop : Z) :
  is_bytes l -> is_bytes (slice l start stop).
Proof.
  intros H. unfold slice. apply is_bytes_firstn, is_bytes_skipn. assumption.
Qed.

Lemma is_bytes_app (a b : bytes) :
  is_bytes a -> is_bytes b -> is_bytes (a ++ b).
Proof. intros Ha Hb. apply Forall_app. split; assumption. Qed.

Lemma is_bytes_flip (data : bytes) : is_bytes data -> is_bytes (flip data).
Proof.
  intros H. unfold flip, slice_from, slice_to.
  apply is_bytes_app; apply is_bytes_slice; assumption.
Qed.

Section Bytes.

Variable F : bytes -> bytes.
Hypothesis F_bytes : forall x, is_bytes x -> is_bytes (F x).

Lemma is_bytes_round (data out : bytes) :
  is_bytes data -> round data F = Ok out -> is_bytes out.
Proof.
  intros Hd. unfold round.
  destruct (negb (Z.land (len data) 1 =? 0)); [discriminate|].
  intros H. injection H as <-.
  assert (Hr : is_bytes (slice_from data (len data / 2)))
    by (apply is_bytes_slice; assumption).
  apply is_bytes_app; [assumption|].
  apply xor_is_bytes; [apply is_bytes_slice; assumption|].
  apply F_bytes. assumption.
Qed.

Lemma is_bytes_rounds (n : nat) : forall blk out,
  is_bytes blk -> rounds n blk F = Ok out -> is_bytes out.
Proof.
  induction n as [|n IH]; intros blk out Hb H.
  - injection H as <-. assumption.
  - simpl in H. destruct (round blk F) as [blk'|e] eqn:E; [|discriminate].
    simpl in H. apply (IH blk'); [|assumption].
    apply (is_bytes_round blk); assumption.
Qed.

Lemma is_bytes_crypt_loop (r : Z) (bs : list bytes) : forall res out,
  Forall is_bytes bs -> is_bytes res ->
  crypt_loop bs F r res = Ok out -> is_bytes out.
Proof.
  induction bs as [|b bs IH]; intros res out Hbs Hres H.
  - injection H as <-. assumption.
  - simpl in H. inversion Hbs as [|? ? Hb Hbs']; subst.
    destruct (rounds (Z.to_nat r) b F) as [b'|e] eqn:E; [|discriminate].
    simpl in H. apply (IH (res ++ flip b')); [assumption| |assumption].
    apply is_bytes_app; [assumption|].
    apply is_bytes_flip.
    apply (is_bytes_rounds (Z.to_nat r) b); assumption.
Qed.

End Bytes.

(** X16: when the input holds bytes (integers in [0, 256)) and the mixing
    function returns bytes for bytes, everything [crypt] builds holds
    bytes: no [bytearray(...)] call of [xor] or [pad] is given a value out
    of range, and the result, in either direction, holds bytes. *)
Theorem crypt_is_bytes (data out : bytes) (F : bytes -> bytes)
    (decrypt : bool) (r : Z) :
  is_bytes data ->
  (forall x, is_bytes x -> is_bytes (F x)) ->
  crypt data F decrypt r = Ok out ->
  is_bytes out.
Proof.
  intros Hd HF. unfold crypt.
  set (data' := if decrypt then data else pad data).
  assert (Hd' : is_bytes data').
  { unfold data'. destruct decrypt; [assumption|].
    apply pad_is_bytes. assumption. }
  assert (Hbs : Forall is_bytes (blocks data')).
  { unfold blocks. apply Forall_forall. intros b Hb.
    apply in_map_iff in Hb. destruct Hb as (i & <- & _).
    apply is_bytes_slice. assumption. }
  destruct (crypt_loop (blocks data') F r []) as [res|e] eqn:E; [|discriminate].
  simpl. intros H. injection H as <-.
  assert (Hres : is_bytes res).
  { apply (is_bytes_crypt_loop F HF r (blocks data') [] res);
      [assumption | constructor | assumption]. }
  destruct decrypt; [|assumption].
  destruct (unpad_prefix res) as [k ->]. apply is_bytes_firstn. assumption.
Qed.

Lemma crypt_is_bytes_witness :
  exists out, crypt [1; 2; 3] F_sum false 2 = Ok out /\ is_bytes out.
Proof.
  destruct (crypt [1; 2; 3] F_sum false 2) as [out|e] eqn:E;
    [|vm_compute in E; discriminate].
  exists out. split; [reflexivity|].
  apply (crypt_is_bytes [1; 2; 3] out F_sum false 2).
  - repeat constructor; unfold is_byte; lia.
  - intros x _. unfold F_sum. apply Forall_forall. intros y Hy.
    apply repeat_spec in Hy. subst y. unfold is_byte.
    apply Z.mod_pos_bound. lia.
  - exact E.
Defined.

(** ** Zero rounds give no secrecy *)

Lemma flip_flip_even (b : bytes) : len b mod 2 = 0 -> flip (flip b) = b.
Proof.
  intros Hev. destruct (even_split b Hev) as (a & c & -> & Hac & _).
  rewrite flip_app by assumption. apply flip_app. symmetry. assumption.
Qed.

Lemma map_flip_full (bs : list bytes) :
  Forall full_block bs ->
  Forall full_block (map flip bs) /\ map flip (map flip bs) = bs.
Proof.
  induction 1 as [|b bs Hb Hbs [IH1 IH2]].
  - split; [constructor | reflexivity].
  - unfold full_block in Hb. simpl. split.
    + constructor; [|assumption]. unfold full_block. rewrite len_flip.
      assumption.
    + rewrite IH2, flip_flip_even; [reflexivity|]. rewrite Hb. reflexivity.
Qed.

(** X17: with a round count of zero or less, what one mixing function
    encrypts any other decrypts: the round trip of [crypt] holds for every
    pair of mixing functions, the ciphertext being the padded message with
    the halves of its blocks exchanged. *)
Theorem crypt_no_rounds_roundtrip (d : bytes) (F G : bytes -> bytes) (r : Z) :
  r <= 0 ->
  exists c, crypt d F false r = Ok c /\ crypt c G true r = Ok d.
Proof.
  intros Hr.
  destruct (aligned_chunks (pad d) (len_pad_mod d)) as (bs & Hd & Hbs).
  destruct (map_flip_full bs Hbs) as [Hfl Hff].
  exists (concat (map flip bs)). unfold crypt.
  rewrite Hd, !blocks_of_full by assumption.
  rewrite !crypt_loop_no_rounds by assumption. simpl.
  split; [reflexivity|].
  rewrite Hff, <- Hd, pad_unfold, unpad_app_repeat; [reflexivity|].
  pose proof (pad_count_range d). lia.
Qed.

Lemma crypt_no_rounds_roundtrip_witness :
  exists c, crypt [1; 2; 3] F_sum false 0 = Ok c /\
            crypt c (fun x => x) true 0 = Ok [1; 2; 3].
Proof. apply (crypt_no_rounds_roundtrip [1; 2; 3] F_sum (fun x => x) 0). lia. Defined.
